(** * verify_modal.py: the modal verification runner

    A shallow embedding of [jules-scratch/verification/verify_modal.py].
    The script drives a browser through the Playwright API: it starts the
    driver in an [async with] block, launches Chromium, opens a page,
    navigates to [modal.html], overwrites the text of [#api-status],
    takes a screenshot and closes the browser.

    The script is modelled as a program in a state-and-exception monad over
    a [World] that holds the process environment (working directory, files),
    the browser side (driver, open browsers, pages) and the history of the
    operations awaited.  The parts of Python and Playwright that the script
    calls ([os.path.abspath], the page operations, the context manager) are
    modelled in their own modules, from their documented behaviour. *)

From stdpp Require Import base option list strings gmap.
From Stdlib Require Import Ascii ZArith Lia.

Open Scope nat_scope.
Open Scope stdpp_scope.
Open Scope list_scope.

(** ** Python's [posixpath], as far as [os.path.abspath] needs it *)

Module posixpath.

Definition sep : string := "/".
Definition dot : string := ".".
Definition dotdot : string := "..".

(** [s.startswith(p)] *)
Definition startswith (s p : string) : bool := String.prefix p s.

(** [s.endswith("/")] *)
Fixpoint endswith_sep (s : string) : bool :=
  match s with
  | EmptyString => false
  | String c EmptyString => Ascii.eqb c "/"
  | String _ s' => endswith_sep s'
  end.

Definition isabs (s : string) : bool := startswith s sep.

(** [join(a, b)] with one trailing component: an absolute [b] replaces
    [a]; otherwise [b] is appended, after a separator unless [a] is empty
    or already ends with one. *)
Definition join (a b : string) : string :=
  if startswith b sep then b
  else if String.eqb a "" || endswith_sep a then a +:+ b
  else a +:+ sep +:+ b.

(** [path.split("/")]: never empty, one more field than separators. *)
Fixpoint split (s : string) : list string :=
  match s with
  | EmptyString => [EmptyString]
  | String c s' =>
      if Ascii.eqb c "/" then EmptyString :: split s'
      else match split s' with
           | x :: xs => String c x :: xs
           | [] => [String c EmptyString]
           end
  end.

Definition nonempty {A} (l : list A) : bool :=
  match l with [] => false | _ => true end.

Definition last_is_dotdot (l : list string) : bool :=
  match last l with
  | Some c => String.eqb c dotdot
  | None => false
  end.

(** One iteration of the loop of [normpath] over the components;
    [new_comps] grows and shrinks at its end. *)
Definition normpath_step (initial_slashes : nat)
    (new_comps : list string) (comp : string) : list string :=
  if String.eqb comp "" || String.eqb comp dot then new_comps
  else if negb (String.eqb comp dotdot)
          || (Nat.eqb initial_slashes 0 && negb (nonempty new_comps))
          || (nonempty new_comps && last_is_dotdot new_comps)
       then new_comps ++ [comp]
       else if nonempty new_comps then removelast new_comps
            else new_comps.

(** POSIX allows one or two initial slashes and treats three or more as
    one. *)
Definition count_initial_slashes (path : string) : nat :=
  if startswith path sep then
    if startswith path "//" && negb (startswith path "///") then 2 else 1
  else 0.

Fixpoint sep_times (n : nat) : string :=
  match n with
  | O => ""
  | S n' => sep +:+ sep_times n'
  end.

Definition normpath (path : string) : string :=
  if String.eqb path "" then dot
  else
    let initial_slashes := count_initial_slashes path in
    let comps := fold_left (normpath_step initial_slashes) (split path) [] in
    let joined := String.concat sep comps in
    let path' :=
      if Nat.eqb initial_slashes 0 then joined
      else sep_times initial_slashes +:+ joined in
    if String.eqb path' "" then dot else path'.

(** [abspath(path)], with the result of [os.getcwd()] made explicit. *)
Definition abspath (cwd path : string) : string :=
  normpath (if isabs path then path else join cwd path).

(** Canonical paths, to state what [abspath] gives for the directories
    that [os.getcwd()] returns.  A proper component is one that [normpath]
    keeps as it is: not empty, not [.] or [..], and without a separator. *)
Fixpoint no_sep (s : string) : bool :=
  match s with
  | EmptyString => true
  | String c s' => negb (Ascii.eqb c "/") && no_sep s'
  end.

Definition proper (c : string) : bool :=
  negb (String.eqb c "") && negb (String.eqb c dot)
  && negb (String.eqb c dotdot) && no_sep c.

(** The absolute path with the given components. *)
Definition rooted (comps : list string) : string :=
  sep +:+ String.concat sep comps.

End posixpath.

(** ** Documents *)

Module dom.

Record element := Element { el_id : string; textContent : string }.

(** A document is the list of its elements, in document order, each with
    its id and its own text; the nesting of elements is not modelled. *)
Definition document := list element.

(** The fragment of CSS the script uses: an id selector [#name] matches
    the elements whose id is [name]; any other selector matches nothing. *)
Definition matches (selector : string) (el : element) : bool :=
  match selector with
  | String "#" name => String.eqb name (el_id el)
  | _ => false
  end.

(** [document.querySelector(selector)]: the first match in document
    order. *)
Definition query_selector (selector : string) (d : document) : option element :=
  List.find (matches selector) d.

(** Run [f] on the first element matching [selector], in place; [None]
    when nothing matches. *)
Fixpoint update_first (selector : string) (f : element -> element)
    (d : document) : option document :=
  match d with
  | [] => None
  | el :: d' =>
      if matches selector el then Some (f el :: d')
      else match update_first selector f d' with
           | Some d'' => Some (el :: d'')
           | None => None
           end
  end.

(** [el.textContent = s] *)
Definition set_textContent (s : string) (el : element) : element :=
  {| el_id := el_id el; textContent := s |}.

End dom.

(** ** The world the script runs in *)

Definition handle := nat.

(** The failures of the browser operations, by kind. *)
Inductive error :=
  | LaunchFailure
  | NavigationFailure
  | SelectorNotFoundError
  | FileWriteError
  | TimeoutError
  | TargetClosedError
  | DriverError.

(** A screenshot, as what was rendered: the document at the moment of the
    capture, and whether the whole scrollable page or only the viewport
    was captured. *)
Record image := Image { img_doc : dom.document; img_full_page : bool }.

Inductive file :=
  | Png (i : image)
  | Other (content : string).

(** The operations sent to the browser side, with their arguments. *)
Inductive op :=
  | Start
  | Launch
  | NewPage (browser : handle)
  | Goto (page : handle) (url : string)
  | EvalOnSelector (page : handle) (selector expression : string)
  | Screenshot (page : handle) (path : option string) (full_page : option bool)
  | Close (browser : handle)
  | Stop.

Inductive op_kind :=
  | KStart | KLaunch | KNewPage | KGoto | KEvalOnSelector | KScreenshot
  | KClose | KStop.

Definition kind_of (o : op) : op_kind :=
  match o with
  | Start => KStart
  | Launch => KLaunch
  | NewPage _ => KNewPage
  | Goto _ _ => KGoto
  | EvalOnSelector _ _ _ => KEvalOnSelector
  | Screenshot _ _ _ => KScreenshot
  | Close _ => KClose
  | Stop => KStop
  end.

(** An awaited operation is called, the task is suspended, and the task
    resumes when the browser side answers: the call returns or raises. *)
Inductive event :=
  | Call (o : op)
  | Return (o : op)
  | Raises (o : op) (e : error).

Definition event_op (ev : event) : op :=
  match ev with
  | Call o | Return o | Raises o _ => o
  end.

Record World := mkWorld {
  cwd : string;                      (* os.getcwd() *)
  web : gmap string dom.document;    (* what the browser loads at a URL *)
  faults : op_kind -> option error;  (* failures of the environment:
                                        timeouts, crashes, I/O errors *)
  fs : gmap string file;             (* files, by the name the process uses;
                                        names are not resolved *)
  driver : bool;                     (* the Playwright driver runs *)
  browsers : gset handle;            (* open browsers *)
  pages : gmap handle (handle * dom.document);  (* open pages: owner, document *)
  next_handle : handle;
  trace : list event                 (* oldest first *)
}.

Definition log (e : event) (w : World) : World :=
  mkWorld (cwd w) (web w) (faults w) (fs w) (driver w) (browsers w) (pages w)
          (next_handle w) (trace w ++ [e]).

Definition set_fs (f : gmap string file) (w : World) : World :=
  mkWorld (cwd w) (web w) (faults w) f (driver w) (browsers w) (pages w)
          (next_handle w) (trace w).

Definition set_driver (d : bool) (w : World) : World :=
  mkWorld (cwd w) (web w) (faults w) (fs w) d (browsers w) (pages w)
          (next_handle w) (trace w).

Definition set_browsers (b : gset handle) (w : World) : World :=
  mkWorld (cwd w) (web w) (faults w) (fs w) (driver w) b (pages w)
          (next_handle w) (trace w).

Definition set_pages (p : gmap handle (handle * dom.document)) (w : World) : World :=
  mkWorld (cwd w) (web w) (faults w) (fs w) (driver w) (browsers w) p
          (next_handle w) (trace w).

Definition fresh_handle (w : World) : handle * World :=
  (next_handle w,
   mkWorld (cwd w) (web w) (faults w) (fs w) (driver w) (browsers w) (pages w)
           (S (next_handle w)) (trace w)).

(** ** Coroutines: state and exceptions *)

Inductive result (A : Type) :=
  | Ok (a : A)
  | Raise (e : error).
Arguments Ok {A} a.
Arguments Raise {A} e.

Definition M (A : Type) : Type := World -> result A * World.

Definition ret {A} (a : A) : M A := fun w => (Ok a, w).

Definition bind {A B} (m : M A) (k : A -> M B) : M B :=
  fun w =>
    match m w with
    | (Ok a, w') => k a w'
    | (Raise e, w') => (Raise e, w')
    end.

Notation "x <- m ;; k" := (bind m (fun x => k))
  (at level 100, m at next level, right associativity).
Notation "m ;;; k" := (bind m (fun _ => k))
  (at level 100, right associativity).

(** An asynchronous context manager: [__aenter__], and [__aexit__], which
    receives the exception of the body, if any, and answers whether to
    suppress it. *)
Record context_manager (A : Type) := ContextManager {
  aenter : M A;
  aexit : option error -> M bool
}.
Arguments aenter {A} _.
Arguments aexit {A} _ _.

(** [async with cm as x: body x].  A failure of [__aenter__] propagates and
    the block is not entered.  Otherwise [__aexit__] runs when the body is
    left, whether it returned or raised; an exception of the body
    propagates after it unless [__aexit__] suppresses it, and an exception
    of [__aexit__] itself propagates in its place. *)
Definition async_with {A} (cm : context_manager A) (body : A -> M unit) : M unit :=
  fun w =>
    match aenter cm w with
    | (Raise e, w1) => (Raise e, w1)
    | (Ok x, w1) =>
        match body x w1 with
        | (Ok _, w2) =>
            match aexit cm None w2 with
            | (Ok _, w3) => (Ok tt, w3)
            | (Raise e', w3) => (Raise e', w3)
            end
        | (Raise e, w2) =>
            match aexit cm (Some e) w2 with
            | (Ok true, w3) => (Ok tt, w3)
            | (Ok false, w3) => (Raise e, w3)
            | (Raise e', w3) => (Raise e', w3)
            end
        end
    end.

(** [await] of one operation of the browser side: the call is recorded,
    then the answer is a failure of the environment, a failure of the
    operation itself, or its value.  A failure of the environment is met
    before the operation has had any effect: what an operation that fails
    midway leaves behind is not modelled. *)
Definition perform {A} (o : op) (sem : World -> error + A * World) : M A :=
  fun w =>
    let w1 := log (Call o) w in
    match faults w (kind_of o) with
    | Some e => (Raise e, log (Raises o e) w1)
    | None =>
        match sem w1 with
        | inl e => (Raise e, log (Raises o e) w1)
        | inr (a, w2) => (Ok a, log (Return o) w2)
        end
    end.

(** ** Playwright's asynchronous API, as far as the script calls it *)

Module playwright.

(** The object bound by [async with async_playwright() as p]. *)
Inductive Playwright := PlaywrightObject.

(** A JavaScript function of one element, by its source text and its
    effect on the element. *)
Record js_function := JsFunction {
  js_source : string;
  js_apply : dom.element -> dom.element
}.

Definition start : M Playwright :=
  perform Start (fun w => inr (PlaywrightObject, set_driver true w)).

(** Stopping the driver ends every browser launched through it. *)
Definition stop : M unit :=
  perform Stop (fun w =>
    inr (tt, set_pages ∅ (set_browsers ∅ (set_driver false w)))).

(** [async_playwright()]: entering starts the driver, leaving stops it;
    [__aexit__] returns nothing, so it never suppresses an exception. *)
Definition async_playwright : context_manager Playwright :=
  {| aenter := start;
     aexit := fun _ => stop ;;; ret false |}.

(** [p.chromium.launch()] *)
Definition launch (p : Playwright) : M handle :=
  perform Launch (fun w =>
    if driver w then
      let '(b, w1) := fresh_handle w in
      inr (b, set_browsers ({[b]} ∪ browsers w1) w1)
    else inl DriverError).

(** [browser.new_page()]: a page on [about:blank]. *)
Definition new_page (browser : handle) : M handle :=
  perform (NewPage browser) (fun w =>
    if bool_decide (browser ∈ browsers w) then
      let '(pg, w1) := fresh_handle w in
      inr (pg, set_pages (<[pg := (browser, [])]> (pages w1)) w1)
    else inl TargetClosedError).

(** [page.goto(url)]: returns once the document is loaded. *)
Definition goto (page : handle) (url : string) : M unit :=
  perform (Goto page url) (fun w =>
    match pages w !! page with
    | None => inl TargetClosedError
    | Some (b, _) =>
        match web w !! url with
        | None => inl NavigationFailure
        | Some d => inr (tt, set_pages (<[page := (b, d)]> (pages w)) w)
        end
    end).

(** [page.eval_on_selector(selector, expression)]: the expression is
    called on the first element matching the selector; an error when
    nothing matches. *)
Definition eval_on_selector (page : handle) (selector : string)
    (expression : js_function) : M unit :=
  perform (EvalOnSelector page selector (js_source expression)) (fun w =>
    match pages w !! page with
    | None => inl TargetClosedError
    | Some (b, d) =>
        match dom.update_first selector (js_apply expression) d with
        | None => inl SelectorNotFoundError
        | Some d' => inr (tt, set_pages (<[page := (b, d')]> (pages w)) w)
        end
    end).

(** The [full_page] argument of [screenshot]: when true the full
    scrollable page is captured instead of the currently visible viewport;
    it defaults to false. *)
Definition full_page_default : bool := false.

(** [page.screenshot(path=..., full_page=...)]: the image is taken and,
    when a path is given, written to it, replacing what was there. *)
Definition screenshot (page : handle) (path : option string)
    (full_page : option bool) : M image :=
  perform (Screenshot page path full_page) (fun w =>
    match pages w !! page with
    | None => inl TargetClosedError
    | Some (_, d) =>
        let img := {| img_doc := d;
                      img_full_page := default full_page_default full_page |} in
        match path with
        | Some f => inr (img, set_fs (<[f := Png img]> (fs w)) w)
        | None => inr (img, w)
        end
    end).

(** [browser.close()]: the browser and its pages are gone; closing a
    closed browser does nothing. *)
Definition close (browser : handle) : M unit :=
  perform (Close browser) (fun w =>
    inr (tt, set_pages (filter (fun kv => fst (snd kv) ≠ browser) (pages w))
               (set_browsers (browsers w ∖ {[browser]}) w))).

End playwright.

(** ** [os] and [asyncio] *)

Module os.

(** [os.path.abspath(path)] reads the working directory of the process. *)
Definition path_abspath (path : string) : M string :=
  fun w => (Ok (posixpath.abspath (cwd w) path), w).

End os.

Module asyncio.

(** [asyncio.run(coro)] runs the coroutine to its end and returns its
    value or raises its exception. *)
Definition run {A} (coro : M A) : M A := coro.

End asyncio.

(** ** The script *)

Module verify_modal.

Definition status_text : string := "OCRing with gpt-4o...".

(** The source of the arrow function passed to [eval_on_selector]. *)
Definition status_script : string := "(el) => {
            el.textContent = 'OCRing with gpt-4o...';
        }".

Definition set_status : playwright.js_function :=
  {| playwright.js_source := status_script;
     playwright.js_apply := dom.set_textContent status_text |}.

Definition screenshot_path : string :=
  "jules-scratch/verification/modal_final_confirmation.png".

Definition main : M unit :=
  async_with playwright.async_playwright (fun p =>
    browser <- playwright.launch p ;;
    page <- playwright.new_page browser ;;
    abs <- os.path_abspath "modal.html" ;;
    let modal_path := "file://" +:+ abs in
    playwright.goto page modal_path ;;;
    playwright.eval_on_selector page "#api-status" set_status ;;;
    playwright.screenshot page (Some screenshot_path) None ;;;
    playwright.close browser).

(** The module body: [main] is defined, and run only when the module is
    executed as the main program. *)
Definition module_body (name : string) : M unit :=
  if String.eqb name "__main__" then asyncio.run main else ret tt.

End verify_modal.

(** The exit status of the interpreter: 0 when the program ends normally,
    1 when an exception reaches the top level. *)
Definition exit_status {A} (r : result A) : Z :=
  match r with
  | Ok _ => 0%Z
  | Raise _ => 1%Z
  end.

(** [python verify_modal.py] *)
Definition run_script (w : World) : Z * World :=
  let '(r, w') := verify_modal.module_body "__main__" w in (exit_status r, w').

(** [import verify_modal] from another module. *)
Definition import_module (w : World) : result unit * World :=
  verify_modal.module_body "verify_modal" w.

(** ** Runs of [main] and what is observed of them *)

Definition run_result (w : World) : result unit := fst (verify_modal.main w).

Definition run_world (w : World) : World := snd (verify_modal.main w).

(** The events of one run: those added to the history by [main]. *)
Definition run_events (w : World) : list event :=
  drop (List.length (trace w)) (trace (run_world w)).

(** The browser side holds nothing any more. *)
Definition released (w : World) : Prop :=
  driver w = false ∧ browsers w = ∅ ∧ pages w = ∅.

(** The errors of the failed operations, oldest first. *)
Fixpoint failures (evs : list event) : list error :=
  match evs with
  | [] => []
  | Raises _ e :: evs' => e :: failures evs'
  | _ :: evs' => failures evs'
  end.

(** The largest number of operations called and not yet answered, over
    the prefixes of a history that starts with [pending] of them. *)
Fixpoint max_in_flight (pending : nat) (evs : list event) : nat :=
  match evs with
  | [] => pending
  | Call _ :: evs' => Nat.max pending (max_in_flight (S pending) evs')
  | _ :: evs' => Nat.max pending (max_in_flight (Nat.pred pending) evs')
  end.

(** Every event satisfying [q] comes after some event satisfying [p];
    [seen] tells whether a [p] event came before [evs]. *)
Fixpoint preceded_by (p q : event -> bool) (seen : bool) (evs : list event) : bool :=
  match evs with
  | [] => true
  | e :: evs' => (negb (q e) || seen) && preceded_by p q (seen || p e) evs'
  end.

Definition goto_returned (e : event) : bool :=
  match e with Return (Goto _ _) => true | _ => false end.

Definition eval_called (e : event) : bool :=
  match e with Call (EvalOnSelector _ _ _) => true | _ => false end.

Definition eval_returned (e : event) : bool :=
  match e with Return (EvalOnSelector _ _ _) => true | _ => false end.

Definition screenshot_called (e : event) : bool :=
  match e with Call (Screenshot _ _ _) => true | _ => false end.

Definition stop_event (e : event) : bool :=
  match e with
  | Call Stop | Return Stop | Raises Stop _ => true
  | _ => false
  end.

Definition is_failure (e : event) : bool :=
  match e with Raises _ _ => true | _ => false end.

(** After the first failure nothing but the stop of the driver happens. *)
Fixpoint no_recovery (evs : list event) : bool :=
  match evs with
  | [] => true
  | e :: evs' => if is_failure e then forallb stop_event evs' else no_recovery evs'
  end.

(** ** The course of a run, read off the environment

    What a run does is decided by the environment alone: which operations
    it makes fail, what the browser loads at the address of [modal.html],
    and whether that document has the element.  The definitions below
    describe the run from these; [main_run] relates them to [main]. *)

Definition modal_url (w : World) : string :=
  "file://" +:+ posixpath.abspath (cwd w) "modal.html".

Definition loaded_doc (w : World) : option dom.document :=
  web w !! modal_url w.

Definition mutated_doc (w : World) : option dom.document :=
  match loaded_doc w with
  | Some d =>
      dom.update_first "#api-status" (dom.set_textContent verify_modal.status_text) d
  | None => None
  end.

Definition goto_error (w : World) : option error :=
  match faults w KGoto with
  | Some e => Some e
  | None => match loaded_doc w with
            | Some _ => None
            | None => Some NavigationFailure
            end
  end.

Definition eval_error (w : World) : option error :=
  match faults w KEvalOnSelector with
  | Some e => Some e
  | None => match mutated_doc w with
            | Some _ => None
            | None => Some SelectorNotFoundError
            end
  end.

(** The operations of the body of the [async with] block, in order, with
    the handles the world hands out, and the failure each one meets if it
    is reached. *)
Definition body_ops (w : World) : list (op * option error) :=
  let browser := next_handle w in
  let page := S (next_handle w) in
  [ (Launch, faults w KLaunch);
    (NewPage browser, faults w KNewPage);
    (Goto page (modal_url w), goto_error w);
    (EvalOnSelector page "#api-status" verify_modal.status_script, eval_error w);
    (Screenshot page (Some verify_modal.screenshot_path) None, faults w KScreenshot);
    (Close browser, faults w KClose) ].

Definition returned (o : op) : list event := [Call o; Return o].

Definition raised (o : op) (e : error) : list event := [Call o; Raises o e].

Definition outcome (o : op) (err : option error) : list event :=
  match err with
  | None => returned o
  | Some e => raised o e
  end.

(** Operations awaited one after the other until one fails. *)
Fixpoint until_failure (ops : list (op * option error)) : list event * option error :=
  match ops with
  | [] => ([], None)
  | (o, Some e) :: _ => (raised o e, Some e)
  | (o, None) :: ops' =>
      let '(evs, err) := until_failure ops' in (returned o ++ evs, err)
  end.

(** The exception that leaves the [async with] block: that of the stop of
    the driver if it fails, else that of the body. *)
Definition block_result (body_err stop_err : option error) : result unit :=
  match stop_err, body_err with
  | Some e', _ => Raise e'
  | None, Some e => Raise e
  | None, None => Ok tt
  end.

(** The image written by a run, if its screenshot is taken. *)
Definition captured (w : World) : option image :=
  match snd (until_failure (take 5 (body_ops w))), mutated_doc w with
  | None, Some d => Some {| img_doc := d; img_full_page := false |}
  | _, _ => None
  end.

(** ** Example worlds *)

Definition modal_html : dom.document :=
  [ dom.Element "title" "Calendar Capture";
    dom.Element "api-status" "Ready";
    dom.Element "save" "Save" ].

Definition modal_without_status : dom.document :=
  [ dom.Element "title" "Calendar Capture"; dom.Element "save" "Save" ].

Definition no_faults : op_kind -> option error := fun _ => None.

(** A working environment, run from [/home/user/ext]. *)
Definition world0 : World :=
  mkWorld "/home/user/ext"
          {[ "file:///home/user/ext/modal.html" := modal_html ]}
          no_faults ∅ false ∅ ∅ 0 [].

(** [modal.html] is missing. *)
Definition world_no_modal : World :=
  mkWorld "/home/user/ext" ∅ no_faults ∅ false ∅ ∅ 0 [].

(** [modal.html] has no [#api-status]. *)
Definition world_no_status : World :=
  mkWorld "/home/user/ext"
          {[ "file:///home/user/ext/modal.html" := modal_without_status ]}
          no_faults ∅ false ∅ ∅ 0 [].

(** The screenshot cannot be written, and the driver does not stop
    cleanly either. *)
Definition world_write_error : World :=
  mkWorld "/home/user/ext"
          {[ "file:///home/user/ext/modal.html" := modal_html ]}
          (fun k => match k with
                    | KScreenshot => Some FileWriteError
                    | KStop => Some DriverError
                    | _ => None
                    end)
          ∅ false ∅ ∅ 0 [].

(** A working directory whose name has characters that a URL reserves. *)
Definition world_odd_cwd : World :=
  mkWorld "/tmp/my dir#1%" ∅ no_faults ∅ false ∅ ∅ 0 [].

(** The driver cannot be started. *)
Definition world_no_driver : World :=
  mkWorld "/home/user/ext"
          {[ "file:///home/user/ext/modal.html" := modal_html ]}
          (fun k => match k with KStart => Some DriverError | _ => None end)
          {[ verify_modal.screenshot_path := Other "old" ]}
          false ∅ ∅ 0 [].

(** The image of another page is already at the output path. *)
Definition stale_image : image :=
  {| img_doc := [ dom.Element "banner" "Another page" ]; img_full_page := false |}.


(** [modal.html] has no [#api-status]; the page and an earlier screenshot
    are on disk. *)
Definition world_no_status_files : World :=
  mkWorld "/home/user/ext"
          {[ "file:///home/user/ext/modal.html" := modal_without_status ]}
          no_faults
          {[ "modal.html" := Other "<html>";
             verify_modal.screenshot_path := Png stale_image ]}
          false ∅ ∅ 0 [].



(** ** Counting the calls of a run *)

Definition op_kind_eqb (k1 k2 : op_kind) : bool :=
  match k1, k2 with
  | KStart, KStart | KLaunch, KLaunch | KNewPage, KNewPage | KGoto, KGoto
  | KEvalOnSelector, KEvalOnSelector | KScreenshot, KScreenshot
  | KClose, KClose | KStop, KStop => true
  | _, _ => false
  end.

(** How many times an operation of kind [k] is called in a history. *)
Fixpoint calls_of (k : op_kind) (evs : list event) : nat :=
  match evs with
  | [] => 0
  | Call o :: evs' =>
      (if op_kind_eqb (kind_of o) k then 1 else 0) + calls_of k evs'
  | _ :: evs' => calls_of k evs'
  end.

(** * Facts about the libraries *)

(** ** Paths *)

Example abspath_of_cwd :
  posixpath.abspath "/home/user/ext" "modal.html" = "/home/user/ext/modal.html".
Proof. reflexivity. Qed.

Example abspath_of_root : posixpath.abspath "/" "modal.html" = "/modal.html".
Proof. reflexivity. Qed.

Example abspath_normalises :
  posixpath.abspath "//srv/a/../b/./" "modal.html" = "//srv/b/modal.html"
  /\ posixpath.abspath "///x//y" "modal.html" = "/x/y/modal.html".
Proof. split; reflexivity. Qed.

Lemma append_String a s t : String a s +:+ t = String a (s +:+ t).
Proof. reflexivity. Qed.

Lemma append_assoc (s t u : string) : (s +:+ t) +:+ u = s +:+ t +:+ u.
Proof.
  induction s as [|a s IH]; [reflexivity|].
  rewrite !append_String. by rewrite IH.
Qed.

Lemma prefix_append p s : String.prefix p (p +:+ s) = true.
Proof.
  induction p as [|a p IH].
  - change ("" +:+ s) with s. by destruct s.
  - rewrite append_String. cbn [String.prefix].
    destruct (ascii_dec a a); [exact IH|congruence].
Qed.

Section posixpath_facts.
Import posixpath.

Lemma isabs_inv s : isabs s = true <-> exists s', s = String "/" s'.
Proof.
  unfold isabs, startswith, sep. destruct s as [|c s]; cbn [String.prefix].
  - split; [discriminate|]. intros [s' H]. discriminate.
  - destruct (ascii_dec "/" c) as [<-|Hne].
    + split; eauto. intros _. by destruct s.
    + split; [discriminate|]. intros [s' H]. congruence.
Qed.

Lemma normpath_isabs p : isabs p = true -> isabs (normpath p) = true.
Proof.
  intros Hp. apply isabs_inv in Hp as Hs. destruct Hs as [s ->].
  unfold normpath. cbn [String.eqb].
  unfold count_initial_slashes. fold (isabs (String "/" s)). rewrite Hp.
  destruct (startswith (String "/" s) "//" && negb (startswith (String "/" s) "///"));
    apply isabs_inv; eexists; reflexivity.
Qed.

Lemma join_isabs a b : isabs a = true -> isabs (join a b) = true.
Proof.
  intros Ha. unfold join. fold (isabs b).
  destruct (isabs b) eqn:Hb; [exact Hb|].
  apply isabs_inv in Ha as [s ->].
  destruct (String.eqb (String "/" s) "" || endswith_sep (String "/" s));
    apply isabs_inv; eexists; reflexivity.
Qed.

(** In an absolute working directory [abspath] gives an absolute path. *)
Lemma abspath_isabs cwd path : isabs cwd = true -> isabs (abspath cwd path) = true.
Proof.
  intros Hcwd. unfold abspath. apply normpath_isabs.
  destruct (isabs path) eqn:Hp; [exact Hp|]. by apply join_isabs.
Qed.

Lemma split_no_sep c : no_sep c = true -> split c = [c].
Proof.
  induction c as [|a c IH]; [reflexivity|].
  cbn [no_sep split]. intros [Ha Hc]%andb_true_iff.
  apply negb_true_iff in Ha. rewrite Ha, (IH Hc). reflexivity.
Qed.

Lemma split_comp c rest :
  no_sep c = true -> split (c +:+ sep +:+ rest) = c :: split rest.
Proof.
  induction c as [|a c IH]; intros Hc.
  - reflexivity.
  - cbn [no_sep] in Hc. apply andb_true_iff in Hc as [Ha Hc].
    apply negb_true_iff in Ha. rewrite append_String. cbn [split].
    rewrite Ha, (IH Hc). reflexivity.
Qed.

Lemma split_concat comps :
  comps <> [] -> forallb no_sep comps = true ->
  split (String.concat sep comps) = comps.
Proof.
  induction comps as [|c comps IH]; [done|]. intros _ Hall.
  cbn [forallb] in Hall. apply andb_true_iff in Hall as [Hc Hall].
  destruct comps as [|c' comps].
  - cbn [String.concat]. by apply split_no_sep.
  - change (String.concat sep (c :: c' :: comps))
      with (c +:+ sep +:+ String.concat sep (c' :: comps)).
    rewrite split_comp by done. by rewrite IH.
Qed.

Lemma split_root s : split (sep +:+ s) = "" :: split s.
Proof. reflexivity. Qed.

Lemma normpath_step_proper n acc c :
  proper c = true -> normpath_step n acc c = acc ++ [c].
Proof.
  unfold proper, normpath_step.
  intros [[[H1 H2]%andb_true_iff H3]%andb_true_iff _]%andb_true_iff.
  apply negb_true_iff in H1, H2. rewrite H1, H2, H3. reflexivity.
Qed.

Lemma fold_normpath_step_proper n comps acc :
  forallb proper comps = true ->
  fold_left (normpath_step n) comps acc = acc ++ comps.
Proof.
  revert acc. induction comps as [|c comps IH]; intros acc Hall; cbn [fold_left].
  - by rewrite app_nil_r.
  - cbn [forallb] in Hall. apply andb_true_iff in Hall as [Hc Hall].
    rewrite normpath_step_proper, IH by done. by rewrite <- app_assoc.
Qed.

Lemma proper_no_sep c : proper c = true -> no_sep c = true.
Proof. unfold proper. by intros [_ H]%andb_true_iff. Qed.

Lemma forallb_proper_no_sep comps :
  forallb proper comps = true -> forallb no_sep comps = true.
Proof.
  induction comps as [|c comps IH]; [done|]. cbn [forallb].
  intros [Hc Hall]%andb_true_iff. by rewrite (proper_no_sep c Hc), IH.
Qed.

Lemma proper_head c :
  proper c = true -> exists a s, c = String a s /\ a <> "/"%char.
Proof.
  unfold proper. destruct c as [|a s]; [done|].
  intros [_ H]%andb_true_iff. cbn [no_sep] in H.
  apply andb_true_iff in H as [H _]. apply negb_true_iff in H.
  apply Ascii.eqb_neq in H. eauto.
Qed.

Lemma concat_head a s comps :
  exists t, String.concat sep (String a s :: comps) = String a t.
Proof.
  destruct comps; cbn [String.concat]; rewrite ?append_String; eauto.
Qed.

Lemma count_initial_slashes_one a t :
  a <> "/"%char -> count_initial_slashes (String "/" (String a t)) = 1.
Proof.
  intros Ha. unfold count_initial_slashes, startswith, sep.
  cbn [String.prefix].
  destruct (ascii_dec "/" "/"); [|congruence].
  destruct (ascii_dec "/" a); [congruence|].
  cbn [andb]. reflexivity.
Qed.

(** [normpath] leaves a canonical path as it is. *)
Lemma normpath_rooted comps :
  comps <> [] -> forallb proper comps = true ->
  normpath (rooted comps) = rooted comps.
Proof.
  intros Hne Hall. unfold normpath, rooted.
  assert (Hcount : count_initial_slashes (sep +:+ String.concat sep comps) = 1).
  { destruct comps as [|c comps]; [done|].
    cbn [forallb] in Hall. apply andb_true_iff in Hall as [Hc _].
    apply proper_head in Hc as (a & s & -> & Ha).
    destruct (concat_head a s comps) as [t ->].
    by apply count_initial_slashes_one. }
  rewrite Hcount.
  change (String.eqb (sep +:+ String.concat sep comps) "") with false.
  cbn [Nat.eqb]. rewrite split_root, split_concat
    by (done || by apply forallb_proper_no_sep).
  cbn [fold_left]. change (normpath_step 1 [] "") with (@nil string).
  rewrite fold_normpath_step_proper by done. cbn [app].
  change (sep_times 1 +:+ String.concat sep comps)
    with (String "/" (String.concat sep comps)).
  reflexivity.
Qed.

Lemma no_sep_endswith c : no_sep c = true -> endswith_sep c = false.
Proof.
  induction c as [|a c IH]; [reflexivity|]. cbn [no_sep endswith_sep].
  intros [Ha Hc]%andb_true_iff. apply negb_true_iff in Ha.
  destruct c; [exact Ha|by apply IH].
Qed.

Lemma endswith_sep_append s c :
  c <> "" -> endswith_sep (s +:+ c) = endswith_sep c.
Proof.
  induction s as [|b s IH]; intros Hc; [reflexivity|].
  rewrite append_String. cbn [endswith_sep].
  destruct (s +:+ c) eqn:E.
  - destruct s; [by change ("" +:+ c) with c in E|discriminate].
  - by apply IH.
Qed.

Lemma concat_snoc comps c :
  comps <> [] ->
  String.concat sep (comps ++ [c]) = String.concat sep comps +:+ sep +:+ c.
Proof.
  induction comps as [|c0 comps IH]; [done|]. intros _.
  destruct comps as [|c1 comps]; [reflexivity|].
  change (String.concat sep ((c0 :: c1 :: comps) ++ [c]))
    with (c0 +:+ sep +:+ String.concat sep ((c1 :: comps) ++ [c])).
  rewrite IH by done.
  change (String.concat sep (c0 :: c1 :: comps))
    with (c0 +:+ sep +:+ String.concat sep (c1 :: comps)).
  by rewrite !append_assoc.
Qed.

Lemma rooted_endswith comps :
  comps <> [] -> forallb proper comps = true ->
  endswith_sep (rooted comps) = false.
Proof.
  intros Hne Hall. destruct (exists_last Hne) as (cs & c & ->).
  rewrite forallb_app in Hall. apply andb_true_iff in Hall as [_ Hc].
  cbn [forallb] in Hc. rewrite andb_true_r in Hc.
  unfold rooted.
  assert (Hcne : c <> "") by (intros ->; discriminate).
  destruct cs as [|c0 cs].
  - cbn [app String.concat]. rewrite endswith_sep_append by done.
    by apply no_sep_endswith, proper_no_sep.
  - rewrite concat_snoc by done. rewrite <- !append_assoc.
    rewrite endswith_sep_append by done.
    by apply no_sep_endswith, proper_no_sep.
Qed.

Lemma join_rooted comps c :
  isabs c = false -> forallb proper comps = true ->
  join (rooted comps) c = rooted (comps ++ [c]).
Proof.
  intros Hc Hall. unfold join. fold (isabs c). rewrite Hc.
  destruct comps as [|c0 comps].
  - reflexivity.
  - rewrite rooted_endswith by done. cbn [orb].
    unfold rooted at 1 2. cbn [sep String.append String.eqb orb].
    unfold rooted. rewrite concat_snoc by done.
    by rewrite !append_assoc.
Qed.

(** In a canonical working directory, [abspath] of a file name is the
    directory followed by the name. *)
Lemma abspath_canonical comps f :
  forallb proper comps = true -> proper f = true ->
  abspath (rooted comps) f = rooted (comps ++ [f]).
Proof.
  intros Hall Hf. unfold abspath.
  assert (Hrel : isabs f = false).
  { apply proper_head in Hf as (a & s & -> & Ha).
    unfold isabs, startswith, sep. cbn [String.prefix].
    destruct (ascii_dec "/" a); congruence. }
  rewrite Hrel, join_rooted by done.
  apply normpath_rooted.
  - by destruct comps.
  - rewrite forallb_app, Hall. cbn [forallb]. by rewrite Hf.
Qed.

End posixpath_facts.

(** ** Documents *)

Section dom_facts.
Variable selector : string.
Variable f : dom.element -> dom.element.

Lemma update_first_None d :
  dom.update_first selector f d = None <-> dom.query_selector selector d = None.
Proof.
  unfold dom.query_selector.
  induction d as [|el d IH]; simpl; [tauto|].
  destruct (dom.matches selector el); [split; discriminate|].
  destruct (dom.update_first selector f d); rewrite <- IH; split; congruence.
Qed.

Hypothesis f_keeps_match :
  forall el, dom.matches selector (f el) = dom.matches selector el.

Lemma update_first_query d d' :
  dom.update_first selector f d = Some d' ->
  exists el, dom.query_selector selector d = Some el
          /\ dom.query_selector selector d' = Some (f el).
Proof.
  unfold dom.query_selector.
  revert d'. induction d as [|el d IH]; simpl; intros d' H; [discriminate|].
  destruct (dom.matches selector el) eqn:Hm.
  - injection H as <-. exists el. simpl. rewrite f_keeps_match, Hm. auto.
  - destruct (dom.update_first selector f d) as [d''|]; [|discriminate].
    injection H as <-. destruct (IH d'' eq_refl) as (el' & H1 & H2).
    exists el'. simpl. rewrite Hm. auto.
Qed.

End dom_facts.

Lemma set_textContent_keeps_match selector s el :
  dom.matches selector (dom.set_textContent s el) = dom.matches selector el.
Proof. reflexivity. Qed.

(** ** Every run of [main]

    [main] is executed symbolically, once: each awaited operation either
    meets a failure or goes on, and the lookups that the operations make
    on the handles just created are resolved. *)

Ltac exec_step H :=
  match type of H with
  | context [faults ?w ?k] => is_var w; destruct (faults w k) eqn:?
  | context [bool_decide (?x ∈ {[?x]} ∪ ?s)] =>
      rewrite (bool_decide_true (x ∈ {[x]} ∪ s)) in H by set_solver
  | context [<[?k:=?v]> ?m !! ?k] => rewrite (lookup_insert_eq m k v) in H
  | context [web ?w !! ?u] => is_var w; destruct (web w !! u) eqn:?
  | context [dom.update_first ?s ?f ?d] =>
      destruct (dom.update_first s f d) eqn:?
  end.

Ltac norm_trace :=
  rewrite <- ?app_assoc; cbn [app]; rewrite ?drop_app_length.

Ltac exec_main w :=
  unfold run_events, run_result, run_world;
  let r := fresh "r" in
  let w' := fresh "w'" in
  let Hrun := fresh "Hrun" in
  destruct (verify_modal.main w) as [r w'] eqn:Hrun;
  unfold verify_modal.main, async_with, playwright.async_playwright in Hrun;
  cbn [aenter aexit] in Hrun;
  unfold playwright.start, playwright.stop, playwright.launch,
    playwright.new_page, playwright.goto, playwright.eval_on_selector,
    playwright.screenshot, playwright.close, os.path_abspath, bind, ret, perform
    in Hrun;
  cbn in Hrun;
  repeat (exec_step Hrun; cbn in Hrun);
  injection Hrun as <- <-; cbn; norm_trace.

(** The run, in terms of the course read off the environment. *)
Lemma main_run w :
  match faults w KStart with
  | Some e =>
      verify_modal.main w = (Raise e, log (Raises Start e) (log (Call Start) w))
  | None =>
      run_events w =
        returned Start ++ fst (until_failure (body_ops w))
          ++ outcome Stop (faults w KStop)
      /\ run_result w =
           block_result (snd (until_failure (body_ops w))) (faults w KStop)
      /\ fs (run_world w) =
           match captured w with
           | Some img => <[verify_modal.screenshot_path := Png img]> (fs w)
           | None => fs w
           end
      /\ (faults w KStop = None -> released (run_world w))
      /\ cwd (run_world w) = cwd w
      /\ web (run_world w) = web w
      /\ faults (run_world w) = faults w
  end.
Proof.
  unfold captured, body_ops, eval_error, goto_error, mutated_doc, loaded_doc,
    modal_url.
  exec_main w; done.
Qed.

Lemma run_shape w :
  (exists e, faults w KStart = Some e
     /\ run_events w = raised Start e /\ run_result w = Raise e
     /\ fs (run_world w) = fs w)
  \/ (faults w KStart = None
      /\ run_events w =
           returned Start ++ fst (until_failure (body_ops w))
             ++ outcome Stop (faults w KStop)
      /\ run_result w =
           block_result (snd (until_failure (body_ops w))) (faults w KStop)
      /\ fs (run_world w) =
           match captured w with
           | Some img => <[verify_modal.screenshot_path := Png img]> (fs w)
           | None => fs w
           end
      /\ (faults w KStop = None -> released (run_world w))).
Proof.
  pose proof (main_run w) as H.
  destruct (faults w KStart) as [e|]; [left|right].
  - exists e. unfold run_events, run_result, run_world. rewrite H. cbn.
    split; [done|]. split; [|done].
    rewrite <- app_assoc. by rewrite drop_app_length.
  - tauto.
Qed.

(** The script changes neither the working directory nor what the
    environment holds in store. *)
Lemma run_frame w :
  cwd (run_world w) = cwd w /\ web (run_world w) = web w
  /\ faults (run_world w) = faults w.
Proof.
  pose proof (main_run w) as H. destruct (faults w KStart) as [e|].
  - unfold run_world. by rewrite H.
  - tauto.
Qed.

(** ** Histories *)

Lemma until_failure_ops ops ev :
  ev ∈ fst (until_failure ops) -> event_op ev ∈ ops.*1.
Proof.
  induction ops as [|[o [e|]] ops IH]; cbn [until_failure fst];
    rewrite ?fmap_cons.
  - intros H. by apply elem_of_nil in H.
  - unfold raised. rewrite !elem_of_cons, elem_of_nil.
    intros [->|[->|[]]]; cbn; auto.
  - destruct (until_failure ops) as [evs err]. unfold returned. cbn in *.
    rewrite !elem_of_cons. intros [->|[->|H]]; cbn; auto.
Qed.

Lemma stop_not_in_body w : Stop ∉ (body_ops w).*1.
Proof.
  unfold body_ops. cbn. rewrite !elem_of_cons, elem_of_nil.
  intuition discriminate.
Qed.

Lemma goto_error_None w :
  goto_error w = None ->
  faults w KGoto = None /\ exists d, loaded_doc w = Some d.
Proof.
  unfold goto_error. destruct (faults w KGoto); [discriminate|].
  destruct (loaded_doc w); [eauto|discriminate].
Qed.

Lemma eval_error_None w :
  eval_error w = None ->
  faults w KEvalOnSelector = None /\ exists d, mutated_doc w = Some d.
Proof.
  unfold eval_error. destruct (faults w KEvalOnSelector); [discriminate|].
  destruct (mutated_doc w); [eauto|discriminate].
Qed.

(** The cases of the body: the first operation that fails, if any. *)
Ltac body_cases w :=
  unfold body_ops in *; cbn [take] in *;
  destruct (faults w KLaunch) as [?e|] eqn:?HLaunch;
    [|destruct (faults w KNewPage) as [?e|] eqn:?HNewPage;
      [|destruct (goto_error w) as [?e|] eqn:?HGoto;
        [|destruct (eval_error w) as [?e|] eqn:?HEval;
          [|destruct (faults w KScreenshot) as [?e|] eqn:?HScreenshot;
            [|destruct (faults w KClose) as [?e|] eqn:?HClose]]]]];
  cbn [until_failure fst snd returned raised app] in *;
  unfold raised in *.

(** The cases of the stop of the driver. *)
Ltac stop_cases w :=
  destruct (faults w KStop) as [?e|] eqn:?HStop;
  cbn [outcome block_result] in *; unfold raised, returned in *.

(** Case analysis on a hypothesis of membership in an explicit list. *)
Ltac elem_cases H :=
  rewrite ?elem_of_cons, ?elem_of_nil in H;
  repeat match type of H with
         | _ \/ _ => destruct H as [H|H]
         end;
  try discriminate H; try contradiction.

(** Membership in an explicit list. *)
Ltac elem_solve := apply list_elem_of_In; simpl; tauto.

Lemma goto_called w pg url :
  Call (Goto pg url) ∈ run_events w -> url = modal_url w.
Proof.
  destruct (run_shape w) as [(e & _ & Hev & _)|(_ & Hev & _)];
    rewrite Hev; clear Hev; intros Hin.
  { unfold raised in Hin. elem_cases Hin. }
  body_cases w; stop_cases w; elem_cases Hin; by injection Hin as -> ->.
Qed.


(** ** Example runs *)

Example run_of_world0 :
  run_result world0 = Ok tt
  /\ run_events world0 =
       [ Call Start; Return Start; Call Launch; Return Launch;
         Call (NewPage 0); Return (NewPage 0);
         Call (Goto 1 "file:///home/user/ext/modal.html");
         Return (Goto 1 "file:///home/user/ext/modal.html");
         Call (EvalOnSelector 1 "#api-status" verify_modal.status_script);
         Return (EvalOnSelector 1 "#api-status" verify_modal.status_script);
         Call (Screenshot 1 (Some verify_modal.screenshot_path) None);
         Return (Screenshot 1 (Some verify_modal.screenshot_path) None);
         Call (Close 0); Return (Close 0); Call Stop; Return Stop ].
Proof. split; vm_compute; reflexivity. Qed.

Example run_without_modal :
  run_result world_no_modal = Raise NavigationFailure
  /\ run_events world_no_modal =
       [ Call Start; Return Start; Call Launch; Return Launch;
         Call (NewPage 0); Return (NewPage 0);
         Call (Goto 1 "file:///home/user/ext/modal.html");
         Raises (Goto 1 "file:///home/user/ext/modal.html") NavigationFailure;
         Call Stop; Return Stop ]
  /\ fs (run_world world_no_modal) = ∅.
Proof. repeat split; vm_compute; reflexivity. Qed.

Example run_with_write_error :
  run_result world_write_error = Raise DriverError
  /\ failures (run_events world_write_error) = [FileWriteError; DriverError]
  /\ fst (run_script world_write_error) = 1%Z.
Proof. repeat split; vm_compute; reflexivity. Qed.

(** [browser.close()] is awaited only when the screenshot was taken: on a
    failure of an earlier step the browser is ended by the stop of the
    driver alone. *)
Remark close_after_screenshot w b :
  Call (Close b) ∈ run_events w ->
  exists pg, Return (Screenshot pg (Some verify_modal.screenshot_path) None)
               ∈ run_events w.
Proof.
  destruct (run_shape w) as [(e & _ & Hev & _)|(_ & Hev & _)];
    rewrite Hev; clear Hev; intros Hin.
  { unfold raised in Hin. elem_cases Hin. }
  exists (S (next_handle w)).
  body_cases w; stop_cases w; elem_cases Hin; elem_solve.
Qed.

(** * Properties of the runner *)

(** C1.  Whenever the session was acquired (the [async with] block was
    entered), the run ends with the release of the session, whatever
    failed in between: the last two events of the run are the call that
    stops the driver and its answer, nothing of the run comes after them,
    and once the stop has returned no driver, browser or page is left.
    This covers a failure of the navigation, of the mutation and of the
    screenshot, as of any other step of the body. *)
Theorem session_released w :
  Return Start ∈ run_events w ->
  (exists evs answer,
      run_events w = evs ++ [Call Stop; answer]
      /\ (answer = Return Stop \/ exists e, answer = Raises Stop e)
      /\ Call Stop ∉ evs)
  /\ (Return Stop ∈ run_events w -> released (run_world w)).
Proof.
  destruct (run_shape w) as [(e & _ & -> & _)|(_ & -> & _ & _ & Hrel)].
  { unfold raised. rewrite !elem_of_cons, elem_of_nil. intuition discriminate. }
  intros _. split.
  - exists (returned Start ++ fst (until_failure (body_ops w))).
    exists (match faults w KStop with
            | Some e => Raises Stop e
            | None => Return Stop
            end).
    split; [|split].
    + rewrite <- app_assoc. by destruct (faults w KStop).
    + destruct (faults w KStop); eauto.
    + rewrite elem_of_app. intros [H|H].
      * unfold returned in H. elem_cases H.
      * apply until_failure_ops in H. by apply stop_not_in_body in H.
  - destruct (faults w KStop) as [e|]; [|auto].
    rewrite !elem_of_app. unfold returned, outcome, raised.
    intros [H|[H|H]]; [elem_cases H| |elem_cases H].
    apply until_failure_ops in H. by apply stop_not_in_body in H.
Qed.

Lemma session_released_witness :
  Raises (Goto 1 "file:///home/user/ext/modal.html") NavigationFailure
    ∈ run_events world_no_modal
  /\ (exists evs answer,
        run_events world_no_modal = evs ++ [Call Stop; answer]
        /\ (answer = Return Stop \/ exists e, answer = Raises Stop e)
        /\ Call Stop ∉ evs)
  /\ released (run_world world_no_modal).
Proof.
  assert (Hacq : Return Start ∈ run_events world_no_modal)
    by (vm_compute; elem_solve).
  destruct (session_released world_no_modal Hacq) as [Hlast Hrel].
  split; [vm_compute; elem_solve|]. split; [exact Hlast|].
  apply Hrel. vm_compute. elem_solve.
Defined.




(** C3.  When the page that the navigation has loaded has no element
    matching [#api-status], the screenshot is never called, no file is
    written, and the run does not succeed; unless the environment makes
    the mutation fail otherwise, the mutation raises
    [SelectorNotFoundError], and unless the stop of the driver fails too,
    that is the exception the run ends with. *)
Theorem selector_not_found w pg url d :
  Return (Goto pg url) ∈ run_events w ->
  web w !! url = Some d ->
  dom.query_selector "#api-status" d = None ->
  (forall pg' p fp, Call (Screenshot pg' p fp) ∉ run_events w)
  /\ fs (run_world w) = fs w
  /\ run_result w <> Ok tt
  /\ (faults w KEvalOnSelector = None ->
      Raises (EvalOnSelector pg "#api-status" verify_modal.status_script)
             SelectorNotFoundError ∈ run_events w
      /\ (faults w KStop = None -> run_result w = Raise SelectorNotFoundError)).
Proof.
  intros Hnav Hweb Hsel.
  destruct (run_shape w) as [(e & _ & Hev & _)|(_ & Hev & Hres & Hfs & _)];
    rewrite Hev in *; clear Hev.
  { unfold raised in Hnav. elem_cases Hnav. }
  assert (Hmut : url = modal_url w -> mutated_doc w = None).
  { intros ->. unfold mutated_doc, loaded_doc. rewrite Hweb.
    by apply update_first_None. }
  rewrite Hres, Hfs. unfold captured. clear Hres Hfs.
  body_cases w; stop_cases w; elem_cases Hnav;
    injection Hnav as -> ->; specialize (Hmut eq_refl);
    try (apply eval_error_None in HEval as [_ [d' Hd']]; congruence).
  all: unfold eval_error in HEval; rewrite Hmut in HEval.
  all: repeat split; try discriminate;
    try (intros pg' p fp Hin; elem_cases Hin).
  all: match goal with
       | H : faults _ KEvalOnSelector = None |- _ =>
           rewrite H in HEval; injection HEval as <-
       end.
  all: try (intros; congruence).
  all: elem_solve.
Qed.

Lemma selector_not_found_witness :
  (forall pg' p fp, Call (Screenshot pg' p fp) ∉ run_events world_no_status)
  /\ fs (run_world world_no_status) = fs world_no_status
  /\ run_result world_no_status <> Ok tt
  /\ Raises (EvalOnSelector 1 "#api-status" verify_modal.status_script)
            SelectorNotFoundError ∈ run_events world_no_status
  /\ run_result world_no_status = Raise SelectorNotFoundError.
Proof.
  destruct (selector_not_found world_no_status 1
              "file:///home/user/ext/modal.html" modal_without_status)
    as (H1 & H2 & H3 & H4).
  - vm_compute. elem_solve.
  - vm_compute. reflexivity.
  - reflexivity.
  - destruct (H4 eq_refl) as [H5 H6]. specialize (H6 eq_refl). auto.
Defined.

(** C4.  On every successful run the screenshot was taken and written, and
    in the document as it was when the screenshot was taken the element
    matching [#api-status] has exactly the text [OCRing with gpt-4o...],
    whatever the page held before. *)
Theorem status_text_at_capture w :
  run_result w = Ok tt ->
  exists pg img el,
    Return (Screenshot pg (Some verify_modal.screenshot_path) None) ∈ run_events w
    /\ fs (run_world w) !! verify_modal.screenshot_path = Some (Png img)
    /\ dom.query_selector "#api-status" (img_doc img) = Some el
    /\ dom.textContent el = "OCRing with gpt-4o...".
Proof.
  intros Hok.
  destruct (run_shape w) as [(e & _ & _ & Hres & _)|(_ & Hev & Hres & Hfs & _)];
    rewrite Hres in Hok; [discriminate|].
  rewrite Hev, Hfs. unfold captured. clear Hev Hres Hfs.
  body_cases w; stop_cases w; try discriminate.
  apply eval_error_None in HEval as [_ [d' Hd']]. rewrite Hd'.
  unfold mutated_doc in Hd'. destruct (loaded_doc w) as [d|]; [|discriminate].
  apply update_first_query in Hd' as (el & _ & Hq);
    [|apply set_textContent_keeps_match].
  exists (S (next_handle w)), {| img_doc := d'; img_full_page := false |},
    (dom.set_textContent verify_modal.status_text el).
  split; [elem_solve|].
  split; [apply lookup_insert_eq|]. split; [exact Hq|reflexivity].
Qed.

Lemma status_text_at_capture_witness :
  exists pg img el,
    Return (Screenshot pg (Some verify_modal.screenshot_path) None)
      ∈ run_events world0
    /\ fs (run_world world0) !! verify_modal.screenshot_path = Some (Png img)
    /\ dom.query_selector "#api-status" (img_doc img) = Some el
    /\ dom.textContent el = "OCRing with gpt-4o...".
Proof.
  apply (status_text_at_capture world0). vm_compute. reflexivity.
Defined.

(** C5.  In every run at most one operation is awaited at a time, the
    mutation is called only after the navigation has returned, and the
    screenshot is called only after the mutation has returned. *)
Theorem operations_sequential w :
  max_in_flight 0 (run_events w) <= 1
  /\ preceded_by goto_returned eval_called false (run_events w) = true
  /\ preceded_by eval_returned screenshot_called false (run_events w) = true.
Proof.
  destruct (run_shape w) as [(e & _ & Hev & _)|(_ & Hev & _)];
    rewrite Hev; clear Hev.
  { cbn. auto. }
  body_cases w; stop_cases w; cbn; auto.
Qed.

(** C6.  Once the page is open the navigation is called, and a navigation
    that is called goes to [file://] followed by the absolute path of
    [modal.html] in the working directory; for a canonical working
    directory that path is the directory followed by [/modal.html]. *)
Theorem navigation_target w b :
  Return (NewPage b) ∈ run_events w ->
  let target := "file://" +:+ posixpath.abspath (cwd w) "modal.html" in
  (exists pg, Call (Goto pg target) ∈ run_events w)
  /\ (forall pg url, Call (Goto pg url) ∈ run_events w -> url = target)
  /\ (forall comps,
        forallb posixpath.proper comps = true ->
        cwd w = posixpath.rooted comps ->
        target = "file://" +:+ posixpath.rooted (comps ++ ["modal.html"])).
Proof.
  intros Hin target. split; [|split].
  - revert Hin.
    destruct (run_shape w) as [(e & _ & Hev & _)|(_ & Hev & _)];
      rewrite Hev; clear Hev; intros Hin.
    { unfold raised in Hin. elem_cases Hin. }
    exists (S (next_handle w)).
    body_cases w; stop_cases w; elem_cases Hin; elem_solve.
  - intros pg url Hcall. by apply goto_called in Hcall.
  - intros comps Hall Hcwd. unfold target. rewrite Hcwd.
    by rewrite abspath_canonical.
Qed.

Lemma navigation_target_witness :
  (exists pg, Call (Goto pg "file:///home/user/ext/modal.html") ∈ run_events world0)
  /\ (forall pg url, Call (Goto pg url) ∈ run_events world0 ->
        url = "file:///home/user/ext/modal.html")
  /\ (forall comps,
        forallb posixpath.proper comps = true ->
        "/home/user/ext" = posixpath.rooted comps ->
        "file:///home/user/ext/modal.html"
          = "file://" +:+ posixpath.rooted (comps ++ ["modal.html"])).
Proof.
  apply (navigation_target world0 0). vm_compute. elem_solve.
Defined.

(** C7.  No failure is caught: a run without a failed operation succeeds
    and the process exits with status 0; otherwise the run ends with the
    exception of the last operation that failed, the process exits with
    status 1, and after the first failure nothing is awaited but the stop
    of the driver. *)
Theorem failures_propagate w :
  run_result w = match last (failures (run_events w)) with
                 | Some e => Raise e
                 | None => Ok tt
                 end
  /\ fst (run_script w) = match failures (run_events w) with
                          | [] => 0%Z
                          | _ => 1%Z
                          end
  /\ snd (run_script w) = run_world w
  /\ no_recovery (run_events w) = true.
Proof.
  assert (Hscript : run_script w = (exit_status (run_result w), run_world w)).
  { unfold run_script, run_result, run_world, verify_modal.module_body,
      asyncio.run.
    cbn. by destruct (verify_modal.main w). }
  rewrite Hscript. cbn [fst snd].
  destruct (run_shape w) as [(e & _ & Hev & Hres & _)|(_ & Hev & Hres & _)];
    rewrite Hev, Hres; clear Hev Hres.
  { cbn. auto. }
  body_cases w; stop_cases w; cbn; auto.
Qed.



(** C9.  When the working directory is absolute, as on a POSIX system, the
    address that the navigation is called with begins with [file:///]: it
    is [file://] followed, as it is, by the absolute path of [modal.html],
    which begins with [/]. *)
Theorem file_url_prefix w pg url :
  posixpath.isabs (cwd w) = true ->
  Call (Goto pg url) ∈ run_events w ->
  String.prefix "file:///" url = true
  /\ exists p, url = "file://" +:+ p
            /\ posixpath.isabs p = true
            /\ p = posixpath.abspath (cwd w) "modal.html".
Proof.
  intros Habs Hin. apply goto_called in Hin as ->. unfold modal_url.
  pose proof (abspath_isabs (cwd w) "modal.html" Habs) as Hp.
  split; [|eauto].
  apply isabs_inv in Hp as [s ->].
  change ("file://" +:+ String "/" s) with ("file:///" +:+ s).
  apply prefix_append.
Qed.

Lemma file_url_prefix_witness :
  String.prefix "file:///" "file:///tmp/my dir#1%/modal.html" = true
  /\ exists p, "file:///tmp/my dir#1%/modal.html" = "file://" +:+ p
            /\ posixpath.isabs p = true
            /\ p = posixpath.abspath (cwd world_odd_cwd) "modal.html".
Proof.
  apply (file_url_prefix world_odd_cwd 1); [reflexivity|].
  vm_compute. elem_solve.
Defined.

(** C10.  Executing the module under any name other than [__main__], as an
    import does, returns at once and leaves the world as it was: no
    operation is sent to the browser side and no file is written. *)
Theorem import_has_no_effect w name :
  name <> "__main__" ->
  verify_modal.module_body name w = (Ok tt, w)
  /\ import_module w = (Ok tt, w).
Proof.
  intros Hname. split; [|reflexivity].
  unfold verify_modal.module_body.
  destruct (String.eqb_spec name "__main__"); [contradiction|reflexivity].
Qed.

Lemma import_has_no_effect_witness :
  verify_modal.module_body "verify_modal" world0 = (Ok tt, world0)
  /\ import_module world0 = (Ok tt, world0).
Proof.
  apply (import_has_no_effect world0 "verify_modal"). discriminate.
Defined.

(** * Further properties of the runner *)

Lemma start_not_in_body w : Start ∉ (body_ops w).*1.
Proof.
  unfold body_ops. cbn. rewrite !elem_of_cons, elem_of_nil.
  intuition discriminate.
Qed.

(** The operations called in a run are the start and the stop of the
    driver and those of the body. *)
Lemma call_known w o :
  Call o ∈ run_events w -> o = Start \/ o = Stop \/ o ∈ (body_ops w).*1.
Proof.
  destruct (run_shape w) as [(e & _ & Hev & _)|(_ & Hev & _)];
    rewrite Hev; clear Hev; intros Hin.
  { unfold raised in Hin. elem_cases Hin. injection Hin as ->. auto. }
  rewrite !elem_of_app in Hin. destruct Hin as [Hin|[Hin|Hin]].
  - unfold returned in Hin. elem_cases Hin. injection Hin as ->. auto.
  - apply until_failure_ops in Hin. auto.
  - destruct (faults w KStop); unfold outcome, raised, returned in Hin;
      elem_cases Hin; injection Hin as ->; auto.
Qed.

(** X1.  [browser.close()] is awaited in exactly the runs in which the
    screenshot has returned. *)
Theorem close_iff_screenshot w :
  (exists b, Call (Close b) ∈ run_events w)
  <-> (exists pg p fp, Return (Screenshot pg p fp) ∈ run_events w).
Proof.
  destruct (run_shape w) as [(e & _ & Hev & _)|(_ & Hev & _)];
    rewrite Hev; clear Hev.
  { unfold raised. split.
    - intros [b Hin]. elem_cases Hin.
    - intros (pg & p & fp & Hin). elem_cases Hin. }
  split.
  - intros [b Hin].
    exists (S (next_handle w)), (Some verify_modal.screenshot_path), None.
    body_cases w; stop_cases w; elem_cases Hin; elem_solve.
  - intros (pg & p & fp & Hin). exists (next_handle w).
    body_cases w; stop_cases w; elem_cases Hin; elem_solve.
Qed.



(** X3.  A run that does not get as far as calling the screenshot writes
    nothing: the files are as before the run. *)
Theorem no_write_before_screenshot w :
  (forall pg p fp, Call (Screenshot pg p fp) ∉ run_events w) ->
  fs (run_world w) = fs w.
Proof.
  destruct (run_shape w) as [(e & _ & _ & _ & Hfs)|(_ & Hev & _ & Hfs & _)];
    [done|].
  rewrite Hev, Hfs. unfold captured. clear Hev Hfs. intros Hno.
  body_cases w; try reflexivity.
  all: exfalso;
    apply (Hno (S (next_handle w)) (Some verify_modal.screenshot_path) None);
    stop_cases w; elem_solve.
Qed.

Lemma no_write_before_screenshot_witness :
  run_result world_no_status_files = Raise SelectorNotFoundError
  /\ fs (run_world world_no_status_files) = fs world_no_status_files
  /\ fs world_no_status_files !! verify_modal.screenshot_path
     = Some (Png stale_image).
Proof.
  split; [vm_compute; reflexivity|]. split; [|vm_compute; reflexivity].
  apply (no_write_before_screenshot world_no_status_files).
  intros pg p fp Hin. apply list_elem_of_In in Hin. vm_compute in Hin.
  intuition discriminate.
Defined.

(** X4.  When the browser cannot load the address that the navigation is
    called with, neither the mutation nor the screenshot is called, no
    file is written and the run does not succeed; unless the environment
    makes the navigation fail otherwise it raises [NavigationFailure], and
    unless the stop of the driver fails too the run ends with it. *)
Theorem navigation_failure w pg url :
  Call (Goto pg url) ∈ run_events w ->
  web w !! url = None ->
  (forall pg' s x, Call (EvalOnSelector pg' s x) ∉ run_events w)
  /\ (forall pg' p fp, Call (Screenshot pg' p fp) ∉ run_events w)
  /\ fs (run_world w) = fs w
  /\ run_result w <> Ok tt
  /\ (faults w KGoto = None ->
      Raises (Goto pg url) NavigationFailure ∈ run_events w
      /\ (faults w KStop = None -> run_result w = Raise NavigationFailure)).
Proof.
  intros Hnav Hweb.
  destruct (run_shape w) as [(e & _ & Hev & _)|(_ & Hev & Hres & Hfs & _)];
    rewrite Hev in *; clear Hev.
  { unfold raised in Hnav. elem_cases Hnav. }
  rewrite Hres, Hfs. unfold captured. clear Hres Hfs.
  body_cases w; stop_cases w; elem_cases Hnav; injection Hnav as -> ->;
    try (apply goto_error_None in HGoto as [_ [d' Hd']];
         unfold loaded_doc in Hd'; congruence).
  all: unfold goto_error, loaded_doc in HGoto; rewrite Hweb in HGoto.
  all: repeat split; try discriminate;
    try (intros pg' p fp Hin; elem_cases Hin).
  all: match goal with
       | H : faults _ KGoto = None |- _ =>
           rewrite H in HGoto; injection HGoto as <-
       end.
  all: try (intros; congruence).
  all: elem_solve.
Qed.

Lemma navigation_failure_witness :
  (forall pg' s x, Call (EvalOnSelector pg' s x) ∉ run_events world_no_modal)
  /\ (forall pg' p fp, Call (Screenshot pg' p fp) ∉ run_events world_no_modal)
  /\ fs (run_world world_no_modal) = fs world_no_modal
  /\ run_result world_no_modal <> Ok tt
  /\ Raises (Goto 1 "file:///home/user/ext/modal.html") NavigationFailure
       ∈ run_events world_no_modal
  /\ run_result world_no_modal = Raise NavigationFailure.
Proof.
  destruct (navigation_failure world_no_modal 1
              "file:///home/user/ext/modal.html")
    as (H1 & H2 & H3 & H4 & H5).
  - vm_compute. elem_solve.
  - reflexivity.
  - destruct (H5 eq_refl) as [H6 H7]. specialize (H7 eq_refl).
    repeat split; assumption.
Defined.

(** X5.  No operation is tried again: in every run each kind of operation
    is called at most once. *)
Theorem no_operation_repeated w k :
  calls_of k (run_events w) <= 1.
Proof.
  destruct (run_shape w) as [(e & _ & Hev & _)|(_ & Hev & _)];
    rewrite Hev; clear Hev.
  { destruct k; cbn; lia. }
  body_cases w; stop_cases w; destruct k; cbn; lia.
Qed.

(** X6.  The operations of a run share their handles: the navigation, the
    mutation and the screenshot are called on one page, and the browser
    that is closed is the one the page was opened in. *)
Theorem operations_share_handles w :
  (forall pg url pg' s x,
     Call (Goto pg url) ∈ run_events w ->
     Call (EvalOnSelector pg' s x) ∈ run_events w -> pg' = pg)
  /\ (forall pg url pg' p fp,
        Call (Goto pg url) ∈ run_events w ->
        Call (Screenshot pg' p fp) ∈ run_events w -> pg' = pg)
  /\ (forall b b',
        Call (NewPage b) ∈ run_events w ->
        Call (Close b') ∈ run_events w -> b' = b).
Proof.
  assert (Hop : forall o, Call o ∈ run_events w ->
                  o = Start \/ o = Stop \/ o ∈ (body_ops w).*1).
  { intros o Hin. apply call_known in Hin. exact Hin. }
  unfold body_ops in Hop. cbn in Hop.
  repeat split; intros;
    repeat match goal with
           | H : Call _ ∈ run_events w |- _ =>
               apply Hop in H; destruct H as [H|[H|H]];
               [discriminate H|discriminate H|elem_cases H; injection H as ?]
           end; congruence.
Qed.

Lemma operations_share_handles_witness :
  Call (Goto 1 "file:///home/user/ext/modal.html") ∈ run_events world0
  /\ Call (Screenshot 1 (Some verify_modal.screenshot_path) None)
       ∈ run_events world0
  /\ 1 = 1.
Proof.
  assert (H1 : Call (Goto 1 "file:///home/user/ext/modal.html") ∈ run_events world0)
    by (vm_compute; elem_solve).
  assert (H2 : Call (Screenshot 1 (Some verify_modal.screenshot_path) None)
                 ∈ run_events world0)
    by (vm_compute; elem_solve).
  split; [exact H1|]. split; [exact H2|].
  exact (proj1 (proj2 (operations_share_handles world0)) _ _ _ _ _ H1 H2).
Defined.

(** X7.  A run that succeeds has awaited, in this order and each to its
    return: the start of the driver, the launch, the opening of the page,
    the navigation, the mutation, the screenshot, the closing of the
    browser and the stop of the driver. *)
Theorem successful_run_history w :
  run_result w = Ok tt ->
  exists b pg,
    run_events w =
      [ Call Start; Return Start; Call Launch; Return Launch;
        Call (NewPage b); Return (NewPage b);
        Call (Goto pg ("file://" +:+ posixpath.abspath (cwd w) "modal.html"));
        Return (Goto pg ("file://" +:+ posixpath.abspath (cwd w) "modal.html"));
        Call (EvalOnSelector pg "#api-status" verify_modal.status_script);
        Return (EvalOnSelector pg "#api-status" verify_modal.status_script);
        Call (Screenshot pg
                (Some "jules-scratch/verification/modal_final_confirmation.png")
                None);
        Return (Screenshot pg
                  (Some "jules-scratch/verification/modal_final_confirmation.png")
                  None);
        Call (Close b); Return (Close b); Call Stop; Return Stop ].
Proof.
  intros Hok.
  destruct (run_shape w) as [(e & _ & _ & Hres & _)|(_ & Hev & Hres & _)];
    rewrite Hres in Hok; [discriminate|].
  rewrite Hev. clear Hev Hres. exists (next_handle w), (S (next_handle w)).
  body_cases w; stop_cases w; try discriminate. reflexivity.
Qed.

Lemma successful_run_history_witness :
  exists b pg,
    run_events world0 =
      [ Call Start; Return Start; Call Launch; Return Launch;
        Call (NewPage b); Return (NewPage b);
        Call (Goto pg ("file://" +:+ posixpath.abspath (cwd world0) "modal.html"));
        Return (Goto pg ("file://" +:+ posixpath.abspath (cwd world0) "modal.html"));
        Call (EvalOnSelector pg "#api-status" verify_modal.status_script);
        Return (EvalOnSelector pg "#api-status" verify_modal.status_script);
        Call (Screenshot pg
                (Some "jules-scratch/verification/modal_final_confirmation.png")
                None);
        Return (Screenshot pg
                  (Some "jules-scratch/verification/modal_final_confirmation.png")
                  None);
        Call (Close b); Return (Close b); Call Stop; Return Stop ].
Proof.
  apply (successful_run_history world0). vm_compute. reflexivity.
Defined.

(** X8.  When the driver cannot be started the block is not entered:
    nothing else is called, not even the stop of the driver, the run ends
    with the exception of the start, and the files and the browser side
    are as before. *)
Theorem start_failure w e :
  Raises Start e ∈ run_events w ->
  run_events w = [Call Start; Raises Start e]
  /\ run_result w = Raise e
  /\ fs (run_world w) = fs w
  /\ driver (run_world w) = driver w
  /\ browsers (run_world w) = browsers w
  /\ pages (run_world w) = pages w.
Proof.
  intros Hin. pose proof (main_run w) as H.
  destruct (faults w KStart) as [e'|].
  - unfold run_events, run_result, run_world in *. rewrite H in *.
    cbn in *. rewrite <- app_assoc in *. rewrite drop_app_length in *.
    cbn in Hin. elem_cases Hin. injection Hin as ->. done.
  - destruct H as (Hev & _). rewrite Hev in Hin. exfalso.
    rewrite !elem_of_app in Hin. unfold returned in Hin.
    destruct Hin as [Hin|[Hin|Hin]].
    + elem_cases Hin.
    + apply until_failure_ops in Hin. by apply start_not_in_body in Hin.
    + destruct (faults w KStop); unfold outcome, raised, returned in Hin;
        elem_cases Hin.
Qed.

Lemma start_failure_witness :
  run_events world_no_driver = [Call Start; Raises Start DriverError]
  /\ run_result world_no_driver = Raise DriverError
  /\ fs (run_world world_no_driver) = fs world_no_driver
  /\ driver (run_world world_no_driver) = driver world_no_driver
  /\ browsers (run_world world_no_driver) = browsers world_no_driver
  /\ pages (run_world world_no_driver) = pages world_no_driver.
Proof.
  apply (start_failure world_no_driver DriverError). vm_compute. elem_solve.
Defined.

Section basename_facts.
Import posixpath.

Lemma split_nonempty s : split s <> [].
Proof.
  destruct s as [|c s]; cbn [split]; [done|].
  destruct (Ascii.eqb c "/"); [done|]. by destruct (split s).
Qed.

Lemma split_app_sep s t : split (s +:+ sep +:+ t) = split s ++ split t.
Proof.
  induction s as [|c s IH]; [reflexivity|].
  rewrite append_String. cbn [split]. rewrite IH.
  destruct (Ascii.eqb c "/"); [reflexivity|].
  pose proof (split_nonempty s) as Hne.
  destruct (split s) as [|x xs]; [done|reflexivity].
Qed.

Lemma endswith_sep_inv a : endswith_sep a = true -> exists s, a = s +:+ sep.
Proof.
  induction a as [|c a IH]; [discriminate|]. cbn [endswith_sep].
  destruct a as [|c' a'].
  - intros H. apply Ascii.eqb_eq in H as ->. by exists "".
  - intros H. destruct (IH H) as [s Hs]. exists (String c s).
    rewrite append_String. by rewrite <- Hs.
Qed.

Lemma endswith_sep_snoc s : endswith_sep (s +:+ sep) = true.
Proof. by rewrite endswith_sep_append. Qed.

Lemma endswith_sep_times n : endswith_sep (sep_times (S n)) = true.
Proof.
  induction n as [|n IH]; [reflexivity|].
  change (sep_times (S (S n))) with (String "/" (sep_times (S n))).
  cbn [endswith_sep]. rewrite IH.
  by change (sep_times (S n)) with (String "/" (sep_times n)).
Qed.

Lemma eqb_append_nonempty d c : c <> "" -> String.eqb (d +:+ c) "" = false.
Proof.
  intros Hc. apply String.eqb_neq. intros H.
  destruct d; [by change ("" +:+ c) with c in H|discriminate].
Qed.

(** The last component of the joined path is the file name. *)
Lemma split_join cwd c :
  proper c = true -> exists l, split (join cwd c) = l ++ [c].
Proof.
  intros Hc. pose proof (proper_no_sep c Hc) as Hns.
  assert (Hrel : startswith c sep = false).
  { apply proper_head in Hc as (a & s & -> & Ha).
    unfold startswith, sep. cbn [String.prefix].
    destruct (ascii_dec "/" a); congruence. }
  unfold join. rewrite Hrel.
  destruct (String.eqb_spec cwd "") as [->|Hne]; cbn [orb].
  - exists []. by apply split_no_sep.
  - destruct (endswith_sep cwd) eqn:Hend.
    + apply endswith_sep_inv in Hend as [s ->]. exists (split s).
      rewrite append_assoc, split_app_sep. by rewrite (split_no_sep c Hns).
    + exists (split cwd). rewrite split_app_sep. by rewrite (split_no_sep c Hns).
Qed.

(** Whatever the working directory, [abspath] of a file name ends with
    that name as its last component. *)
Lemma abspath_basename cwd c :
  proper c = true ->
  exists dir, abspath cwd c = dir +:+ c /\ (dir = "" \/ endswith_sep dir = true).
Proof.
  intros Hc.
  assert (Hcne : c <> "").
  { apply proper_head in Hc as (a & s & -> & _). discriminate. }
  assert (Hrel : isabs c = false).
  { apply proper_head in Hc as (a & s & -> & Ha).
    unfold isabs, startswith, sep. cbn [String.prefix].
    destruct (ascii_dec "/" a); congruence. }
  unfold abspath. rewrite Hrel.
  destruct (split_join cwd c Hc) as [l Hl].
  unfold normpath. rewrite Hl.
  assert (HP : String.eqb (join cwd c) "" = false).
  { apply String.eqb_neq. intros HP. rewrite HP in Hl. cbn in Hl.
    destruct l as [|? [|? ?]]; cbn in Hl; congruence. }
  rewrite HP, fold_left_app. cbn [fold_left].
  rewrite normpath_step_proper by done.
  set (acc := fold_left (normpath_step (count_initial_slashes (join cwd c))) l []).
  assert (Hjoin : exists d, String.concat sep (acc ++ [c]) = d +:+ c
                            /\ (d = "" \/ endswith_sep d = true)).
  { destruct acc as [|a acc'].
    - exists "". auto.
    - exists (String.concat sep (a :: acc') +:+ sep).
      rewrite concat_snoc by done. rewrite append_assoc.
      split; [reflexivity|]. right. apply endswith_sep_snoc. }
  destruct Hjoin as (d & -> & Hd).
  destruct (count_initial_slashes (join cwd c)) as [|n]; cbn [Nat.eqb].
  - rewrite eqb_append_nonempty by done. eauto.
  - rewrite <- append_assoc. rewrite eqb_append_nonempty by done.
    exists (sep_times (S n) +:+ d). split; [reflexivity|]. right.
    destruct Hd as [->|Hd].
    + replace (sep_times (S n) +:+ "") with (sep_times (S n)).
      * apply endswith_sep_times.
      * clear. induction (sep_times (S n)) as [|a s IH]; [reflexivity|].
        rewrite append_String. by rewrite <- IH.
    + rewrite endswith_sep_append; [exact Hd|]. intros ->. discriminate.
Qed.

End basename_facts.

(** X10.  Whatever the working directory, the address that the navigation
    is called with is [file://], a directory part that is empty or ends
    with a separator, and the file name [modal.html]. *)
Theorem target_named_modal_html w pg url :
  Call (Goto pg url) ∈ run_events w ->
  exists dir,
    url = "file://" +:+ dir +:+ "modal.html"
    /\ (dir = "" \/ posixpath.endswith_sep dir = true).
Proof.
  intros Hin. apply goto_called in Hin as ->. unfold modal_url.
  destruct (abspath_basename (cwd w) "modal.html" eq_refl) as (dir & -> & Hdir).
  eauto.
Qed.

Lemma target_named_modal_html_witness :
  exists dir,
    "file:///home/user/ext/modal.html" = "file://" +:+ dir +:+ "modal.html"
    /\ (dir = "" \/ posixpath.endswith_sep dir = true).
Proof.
  apply (target_named_modal_html world0 1). vm_compute. elem_solve.
Defined.

Example target_with_dotdot :
  posixpath.abspath "/srv/app/../ext/" "modal.html" = "/srv/ext/modal.html".
Proof. reflexivity. Qed.

Lemma until_failure_snd ops ops' :
  ops.*2 = ops'.*2 -> snd (until_failure ops) = snd (until_failure ops').
Proof.
  revert ops'. induction ops as [|[o err] ops IH]; intros [|[o' err'] ops'] H;
    try discriminate; [reflexivity|].
  rewrite !fmap_cons in H. cbn [snd] in H. injection H as -> H.
  cbn [until_failure]. destruct err' as [e|]; [reflexivity|].
  specialize (IH ops' H).
  destruct (until_failure ops), (until_failure ops'). exact IH.
Qed.

Lemma captured_frame w w' :
  cwd w' = cwd w -> web w' = web w -> faults w' = faults w ->
  captured w' = captured w.
Proof.
  intros Hcwd Hweb Hf.
  assert (Hmut : mutated_doc w' = mutated_doc w).
  { unfold mutated_doc, loaded_doc, modal_url. by rewrite Hcwd, Hweb. }
  unfold captured. rewrite Hmut.
  rewrite (until_failure_snd (take 5 (body_ops w')) (take 5 (body_ops w)));
    [reflexivity|].
  unfold body_ops, eval_error, goto_error. rewrite Hmut.
  unfold loaded_doc, modal_url. rewrite Hcwd, Hweb, Hf. reflexivity.
Qed.

(** X11.  Whatever the outcome of a run, a second run in the same
    environment leaves the files as the first run left them. *)
Theorem rerun_keeps_files w :
  fs (run_world (run_world w)) = fs (run_world w).
Proof.
  destruct (run_frame w) as (Hcwd & Hweb & Hf).
  pose proof (captured_frame w (run_world w) Hcwd Hweb Hf) as Hcap.
  destruct (run_shape (run_world w))
    as [(e & _ & _ & _ & Hfs2)|(Hs2 & _ & _ & Hfs2 & _)]; [exact Hfs2|].
  rewrite Hfs2, Hcap. rewrite Hf in Hs2.
  destruct (run_shape w) as [(e & Hs1 & _)|(_ & _ & _ & Hfs1 & _)];
    [congruence|].
  rewrite Hfs1. destruct (captured w); [|reflexivity].
  apply insert_insert_eq.
Qed.
